(** * LookTable: a chained hash table addressed by a triple multiplicative hash

    Shallow embedding of [src/main.cpp].  The table is an array of
    [MAX_SIZE] atomic bucket heads plus an atomic [uint64_t] counter; every
    bucket is a singly linked chain of heap-allocated nodes.  Memory is
    modelled explicitly: the free store is a finite map from addresses to
    nodes, the bucket array a finite map from indices to addresses (an absent
    index is a null head), and the three operations are programs of a small
    state-and-error monad whose primitives are the loads, stores and
    compare-and-swaps the source performs.

    Assumptions of the model: one thread runs an operation at a time (all
    atomics are sequentially consistent in the source, so a concurrent run
    is an interleaving of these steps); [compare_exchange_weak] does not
    fail spuriously; the bucket heads of a new table are null; the
    allocator may return any address that holds no live node.  Loops take
    an iteration budget, and a call that exhausts it reports the memory it
    has reached. *)

From Stdlib Require Import ZArith Lia.
From stdpp Require Import base option list gmap.

Local Open Scope Z_scope.

(** ** Unsigned 64-bit arithmetic *)

Definition uint64_modulus : Z := 2 ^ 64.

(** Conversion to [uint64_t] (also the implicit conversion of an [int64_t]
    argument) and the wrap-around of every [uint64_t] operation. *)
Definition to_uint64 (z : Z) : Z := z mod uint64_modulus.

Definition MAX_SIZE : Z := 1000000.

(** ** namespace Triple_Hash *)

Module Triple_Hash.

Definition PRIME1 : Z := 2654435761.
Definition PRIME2 : Z := 2246822519.
Definition PRIME3 : Z := 3266489917.
Definition MOD1 : Z := 1000000007.
Definition MOD2 : Z := 1000000009.
Definition MOD3 : Z := MAX_SIZE.

(** [uint64_t get(uint64_t id)]: each product is a [uint64_t] product. *)
Definition get (id : Z) : Z :=
  let hash1 := to_uint64 (to_uint64 id * PRIME1) mod MOD1 in
  let hash2 := to_uint64 (hash1 * PRIME2) mod MOD2 in
  let hash3 := to_uint64 (hash2 * PRIME3) mod MOD3 in
  hash3.

End Triple_Hash.

(** ** Memory *)

(** Addresses of heap-allocated nodes; a [Node*] is an optional address,
    [None] being [nullptr]. *)
Definition loc : Type := positive.
Abbreviation ptr := (option loc).

Module LookTable.

Section LookTable.
Context {T : Type}.

(** [struct Node { int64_t id; T data; Node *next; }] *)
Record Node : Type := mkNode { id : Z; data : T; next : ptr }.

(** The object [LookTable<T>] together with the free store its nodes live
    in.  [table !! b = None] is a null bucket head. *)
Record Memory : Type := mkMemory {
  sizeCounter : Z;
  table : gmap Z loc;
  heap : gmap loc Node
}.

(** A freshly constructed table: counter [0], every head null, no node. *)
Definition empty : Memory :=
  {| sizeCounter := 0; table := ∅; heap := ∅ |}.

(** *** The monad of operations

    A computation either returns a value with the memory it leaves, or
    dereferences a null or freed pointer ([Fault]), or is still running
    when its loop budget is spent ([Timeout], with the memory at that
    point). *)
Inductive outcome (A : Type) : Type :=
| Done (a : A) (m : Memory)
| Fault
| Timeout (m : Memory).
Global Arguments Done {A} a m.
Global Arguments Fault {A}.
Global Arguments Timeout {A} m.

Definition M (A : Type) : Type := Memory → outcome A.

Definition ret {A} (a : A) : M A := λ m, Done a m.

Definition bind {A B} (c : M A) (k : A → M B) : M B :=
  λ m, match c m with
       | Done a m' => k a m'
       | Fault => Fault
       | Timeout m' => Timeout m'
       end.

Definition timeout {A} : M A := λ m, Timeout m.

End LookTable.

Global Arguments Node : clear implicits.
Global Arguments Memory : clear implicits.
Global Arguments M : clear implicits.

(** stdpp's monad notations [x ← c; k] and [c;; k] are used for [M]. *)
Global Instance M_ret {T} : MRet (M T) := @ret T.
Global Instance M_bind {T} : MBind (M T) := λ A B k c, bind c k.

Section Operations.
Context {T : Type}.
Abbreviation Node := (Node T).
Abbreviation Memory := (Memory T).
Abbreviation M := (M T).

(** *** Primitive memory actions *)

(** [head.load()] on [table[b]]. *)
Definition head_load (b : Z) : M ptr :=
  λ m, Done (table m !! b) m.

(** Writing a pointer into [table[b]]. *)
Definition head_store (b : Z) (p : ptr) (tbl : gmap Z loc) : gmap Z loc :=
  match p with
  | Some l => <[b := l]> tbl
  | None => base.delete b tbl
  end.

(** [head.compare_exchange_weak(expected, desired)] on [table[b]], without
    spurious failure (a single thread on a machine whose compare-and-swap
    is strong).  Returns the success flag and the value left in
    [expected]: on failure the current head is loaded into it. *)
Definition head_compare_exchange (b : Z) (expected desired : ptr)
  : M (bool * ptr) :=
  λ m, if decide (table m !! b = expected)
       then Done (true, expected)
              {| sizeCounter := sizeCounter m;
                 table := head_store b desired (table m);
                 heap := heap m |}
       else Done (false, table m !! b) m.

(** Reading the node behind a pointer ([p->id], [p->next], [p->data]). *)
Definition deref (p : ptr) : M Node :=
  λ m, match p with
       | None => Fault
       | Some l => match heap m !! l with
                   | Some n => Done n m
                   | None => Fault
                   end
       end.

(** The allocator: an address that holds no live node. *)
Definition alloc (h : gmap loc Node) : loc := fresh (dom h).

(** [std::make_unique<Node>(id, t)]: the constructor sets [next(nullptr)]. *)
Definition new_Node (i : Z) (t : T) : M loc :=
  λ m, let l := alloc (heap m) in
       Done l {| sizeCounter := sizeCounter m;
                 table := table m;
                 heap := <[l := mkNode i t None]> (heap m) |}.

(** [l->next = p]. *)
Definition set_next (l : loc) (p : ptr) : M unit :=
  λ m, match heap m !! l with
       | Some n => Done tt {| sizeCounter := sizeCounter m;
                              table := table m;
                              heap := <[l := mkNode (id n) (data n) p]> (heap m) |}
       | None => Fault
       end.

(** [delete p]. *)
Definition delete_Node (p : ptr) : M unit :=
  λ m, match p with
       | None => Done tt m
       | Some l => match heap m !! l with
                   | Some _ => Done tt {| sizeCounter := sizeCounter m;
                                          table := table m;
                                          heap := base.delete l (heap m) |}
                   | None => Fault
                   end
       end.

(** [sizeCounter.fetch_add(n)], [fetch_sub(n)] and [load()]. *)
Definition fetch_add (n : Z) : M unit :=
  λ m, Done tt {| sizeCounter := to_uint64 (sizeCounter m + n);
                  table := table m; heap := heap m |}.

Definition fetch_sub (n : Z) : M unit :=
  λ m, Done tt {| sizeCounter := to_uint64 (sizeCounter m - n);
                  table := table m; heap := heap m |}.

Definition counter_load : M Z :=
  λ m, Done (sizeCounter m) m.

(** *** [void insert(int64_t id, T &&t)] *)

(** The retry loop [while (!head.compare_exchange_weak(oldHead, newNode))
    newNode->next = oldHead;], one unit of fuel per attempt. *)
Fixpoint insert_loop (fuel : nat) (hash : Z) (newNode : loc) (oldHead : ptr)
  : M unit :=
  match fuel with
  | O => timeout
  | S fuel =>
      '(ok, oldHead) ← head_compare_exchange hash oldHead (Some newNode);
      if ok : bool then ret tt
      else set_next newNode oldHead ;; insert_loop fuel hash newNode oldHead
  end.

Definition insert (fuel : nat) (i : Z) (t : T) : M unit :=
  let hash := Triple_Hash.get i in
  newNode ← new_Node i t;
  oldHead ← head_load hash;
  set_next newNode oldHead ;;
  insert_loop fuel hash newNode oldHead ;;
  fetch_add 1.

(** *** [std::optional<T *> find(int64_t id)]

    The result points into the node found; it is modelled by that node's
    address. *)
Fixpoint find_loop (fuel : nat) (i : Z) (currentNode : ptr) : M ptr :=
  match fuel with
  | O => timeout
  | S fuel =>
      match currentNode with
      | None => ret None
      | Some _ =>
          n ← deref currentNode;
          if id n =? i then ret currentNode
          else find_loop fuel i (next n)
      end
  end.

Definition find (fuel : nat) (i : Z) : M ptr :=
  let hash := Triple_Hash.get i in
  currentNode ← head_load hash;
  find_loop fuel i currentNode.

(** What a caller reads through the result, [*found.value()]. *)
Definition find_value (fuel : nat) (i : Z) : M (option T) :=
  found ← find fuel i;
  match found with
  | None => ret None
  | Some _ => n ← deref found; ret (Some (data n))
  end.

(** *** [void erase(int64_t id)]

    The loop returns [true] when the function left through [return] and
    [false] when the loop ran off the end of the chain. *)
Fixpoint erase_loop (fuel : nat) (i : Z) (hash : Z) (oldHead : ptr) : M bool :=
  match fuel with
  | O => timeout
  | S fuel =>
      (* the statement [oldHead = oldHead->next] closing the loop body *)
      let advance (oldHead : ptr) : M bool :=
        n ← deref oldHead;
        erase_loop fuel i hash (next n) in
      match oldHead with
      | None => ret false
      | Some _ =>
          n ← deref oldHead;
          if id n =? i then
            let next := next n in
            '(ok, oldHead) ← head_compare_exchange hash oldHead next;
            if ok : bool then delete_Node oldHead;; ret true
            else advance oldHead
          else advance oldHead
      end
  end.

Definition erase (fuel : nat) (i : Z) : M unit :=
  let hash := Triple_Hash.get i in
  oldHead ← head_load hash;
  returned ← erase_loop fuel i hash oldHead;
  if returned : bool then ret tt else fetch_sub 1.

(** *** [uint64_t size()] *)
Definition size : M Z := counter_load.

End Operations.

(** ** Chains and reachable memories *)

Section Chains.
Context {T : Type}.
Abbreviation Node := (Node T).
Abbreviation Memory := (Memory T).

(** [chain h p ns]: following [next] links in the heap [h] from the
    pointer [p] visits exactly the nodes [ns] (address and content, in
    order) and then reaches [nullptr]. *)
Inductive chain (h : gmap loc Node) : ptr → list (loc * Node) → Prop :=
| chain_nil : chain h None []
| chain_cons l n ns :
    h !! l = Some n →
    chain h (next n) ns →
    chain h (Some l) ((l, n) :: ns).

(** The first node of a chain whose key is [i]. *)
Fixpoint first_match (i : Z) (ns : list (loc * Node)) : option (loc * Node) :=
  match ns with
  | [] => None
  | (l, n) :: ns => if id n =? i then Some (l, n) else first_match i ns
  end.

(** The chain of bucket [b] in memory [m]. *)
Definition bucket (m : Memory) (b : Z) (ns : list (loc * Node)) : Prop :=
  chain (heap m) (table m !! b) ns.

(** Memories a single thread can produce through the public operations,
    starting from a fresh table. *)
Inductive reachable : Memory → Prop :=
| reachable_empty : reachable empty
| reachable_insert fuel i t m m' :
    reachable m → insert fuel i t m = Done tt m' → reachable m'
| reachable_erase fuel i m m' :
    reachable m → erase fuel i m = Done tt m' → reachable m'.

(** Every bucket is a null-terminated chain and no node is shared by two
    buckets. *)
Definition well_formed (m : Memory) : Prop :=
  (∀ b, ∃ ns, bucket m b ns) ∧
  (∀ b1 b2 ns1 ns2 l,
      bucket m b1 ns1 → bucket m b2 ns2 →
      l ∈ ns1.*1 → l ∈ ns2.*1 → b1 = b2).

End Chains.

(** ** Callers: the loops of the test cases *)

Section Callers.
Context {T : Type}.

(** [for (...) lookTable.insert(id, std::move(payload));] over the keys and
    payloads the loop produces, in order. *)
Fixpoint insert_all (fuel : nat) (kvs : list (Z * T)) : M T unit :=
  match kvs with
  | [] => mret tt
  | (i, t) :: kvs => insert fuel i t;; insert_all fuel kvs
  end.


(** Every node of a bucket chain has a key that hashes to that bucket. *)
Definition keys_in_place (m : Memory T) : Prop :=
  ∀ b ns l n, bucket m b ns → (l, n) ∈ ns → Triple_Hash.get (id n) = b.

(** Every live node is linked in the bucket of its key. *)
Definition no_leak (m : Memory T) : Prop :=
  ∀ l n, heap m !! l = Some n →
         ∃ ns, bucket m (Triple_Hash.get (id n)) ns ∧ (l, n) ∈ ns.

End Callers.

(** The keys and payloads of one thread of the concurrent tests: thread
    [i] of [n] operations uses [id = i * n + j] for [j] in [0, n) as key and
    as payload. *)
Definition thread_ids (i n : Z) : list (Z * Z) :=
  (λ j, let id := i * n + j in (id, id)) <$> seqZ 0 n.

(** ** Concrete tables of [LookTable<int>] *)

(** After [insert(100, 42)] on a fresh table. *)
Definition table_100 : Memory Z :=
  {| sizeCounter := 1;
     table := {[ 245106 := 1%positive ]};
     heap := {[ 1%positive := mkNode 100 42 None ]} |}.

(** After [insert(1, 42); insert(201850, 43)] on a fresh table: both keys
    hash to bucket 991601, key 1 sits behind key 201850. *)
Definition table_collision : Memory Z :=
  {| sizeCounter := 2;
     table := {[ 991601 := 2%positive ]};
     heap := {[ 1%positive := mkNode 1 42 None;
                2%positive := mkNode 201850 43 (Some 1%positive) ]} |}.

(** The table left by [erase(100)] on [table_100]: no node, every head
    null, and the counter still at 1. *)
Definition table_100_erased : Memory Z :=
  {| sizeCounter := 1; table := ∅; heap := ∅ |}.

(** The table left by [erase(201850)] on [table_collision]: the head of
    bucket 991601 is now the node of key 1, and the counter is still 2. *)
Definition table_collision_erased : Memory Z :=
  {| sizeCounter := 2;
     table := {[ 991601 := 1%positive ]};
     heap := {[ 1%positive := mkNode 1 42 None ]} |}.

(** ** Proof automation *)

(** Unfolds the monad so that a computation applied to a memory reduces. *)
Ltac unfold_monad :=
  unfold mbind, M_bind, bind, mret, M_ret, ret, timeout,
    head_load, head_compare_exchange, deref, new_Node, set_next,
    delete_Node, fetch_add, fetch_sub, counter_load in *.

Ltac run_monad := repeat (progress (unfold_monad; simpl)).

(** ** The hash function *)

Section Hash.
Import Triple_Hash.

Lemma to_uint64_small z : 0 ≤ z < uint64_modulus → to_uint64 z = z.
Proof. intros H. unfold to_uint64. by apply Z.mod_small. Qed.

Lemma to_uint64_range z : 0 ≤ to_uint64 z < uint64_modulus.
Proof. unfold to_uint64. apply Z.mod_pos_bound. by compute. Qed.

Example get_100 : get 100 = 245106.
Proof. reflexivity. Qed.

Example get_collision : get 1 = 991601 ∧ get 201850 = 991601.
Proof. split; reflexivity. Qed.

(** The second and third products never exceed 64 bits. *)
Lemma stage_no_wrap h p q :
  0 ≤ h < q → 0 < p → q * p ≤ uint64_modulus → to_uint64 (h * p) = h * p.
Proof. intros Hh Hp Hq. apply to_uint64_small. nia. Qed.

(** For keys up to 6949403087 the first product does not wrap either;
    beyond, it does. *)
Lemma get_small_key i :
  0 ≤ i ≤ 6949403087 →
  get i = ((i * PRIME1 mod MOD1 * PRIME2) mod MOD2 * PRIME3) mod MOD3.
Proof.
  intros Hi. unfold get.
  assert (H1 : 0 ≤ i * PRIME1 mod MOD1 < MOD1) by (apply Z.mod_pos_bound; by compute).
  rewrite (to_uint64_small i) by (unfold uint64_modulus; lia).
  rewrite (to_uint64_small (i * PRIME1)) by (unfold uint64_modulus, PRIME1; lia).
  rewrite (stage_no_wrap _ PRIME2 MOD1) by (done || by compute).
  assert (H2 : 0 ≤ (i * PRIME1 mod MOD1 * PRIME2) mod MOD2 < MOD2)
    by (apply Z.mod_pos_bound; by compute).
  by rewrite (stage_no_wrap _ PRIME3 MOD2) by (done || by compute).
Qed.

Example get_wraps :
  get (2 ^ 63 - 1) = 423833 ∧
  (((2 ^ 63 - 1) * PRIME1 mod MOD1 * PRIME2) mod MOD2 * PRIME3) mod MOD3 = 968305.
Proof. split; reflexivity. Qed.

(** C8: the index function is a total function of the key (any integer,
    hence every 64-bit key), its result lies in [0, MAX_SIZE) with
    MAX_SIZE = 1000000, and it is the composition of three stages:
    the 64-bit product by 2654435761 reduced modulo 10^9+7, the product by
    2246822519 reduced modulo 10^9+9, and the product by 3266489917
    reduced modulo 1000000 (the last two products never wrap). *)
Theorem get_index_in_range (i : Z) :
  0 ≤ get i < MAX_SIZE ∧
  MAX_SIZE = 1000000 ∧
  get i =
    ((to_uint64 (to_uint64 i * 2654435761) mod (10 ^ 9 + 7) * 2246822519)
       mod (10 ^ 9 + 9) * 3266489917) mod 1000000.
Proof.
  split; [|split; [done|]].
  - unfold get. apply Z.mod_pos_bound. by compute.
  - unfold get.
    set (h1 := to_uint64 (to_uint64 i * PRIME1) mod MOD1).
    assert (H1 : 0 ≤ h1 < MOD1) by (apply Z.mod_pos_bound; by compute).
    rewrite (stage_no_wrap h1 PRIME2 MOD1) by (done || by compute).
    set (h2 := (h1 * PRIME2) mod MOD2).
    assert (H2 : 0 ≤ h2 < MOD2) by (apply Z.mod_pos_bound; by compute).
    by rewrite (stage_no_wrap h2 PRIME3 MOD2) by (done || by compute).
Qed.

End Hash.

(** ** Running the operations *)

Section Chain_facts.
Context {T : Type}.
Implicit Types (h : gmap loc (Node T)) (m : Memory T) (p : ptr)
  (ns : list (loc * Node T)) (n : Node T) (l : loc).

Lemma alloc_fresh h : h !! alloc h = None.
Proof. apply not_elem_of_dom. unfold alloc. apply is_fresh. Qed.

Lemma chain_functional h p ns1 ns2 :
  chain h p ns1 → chain h p ns2 → ns1 = ns2.
Proof.
  intros H1. revert ns2.
  induction H1 as [|l n ns Hl _ IH]; intros ns2 H2; inversion H2; subst.
  - done.
  - assert (n0 = n) as -> by congruence. f_equal. by apply IH.
Qed.

(** Every node of a chain is live. *)
Lemma chain_lookup h p ns l n :
  chain h p ns → (l, n) ∈ ns → h !! l = Some n.
Proof.
  induction 1 as [|l' n' ns Hl _ IH]; intros Hin.
  - by apply elem_of_nil in Hin.
  - apply elem_of_cons in Hin as [[= -> ->]|Hin]; auto.
Qed.

Lemma chain_lookup_loc h p ns l :
  chain h p ns → l ∈ ns.*1 → is_Some (h !! l).
Proof.
  intros Hc Hin. apply list_elem_of_fmap in Hin as [[l' n] [-> Hin]].
  exists n. by eapply chain_lookup.
Qed.

(** From any node of a chain a chain starts that is no longer. *)
Lemma chain_from_member h p ns l :
  chain h p ns → l ∈ ns.*1 →
  ∃ ns', chain h (Some l) ns' ∧ (length ns' ≤ length ns)%nat.
Proof.
  induction 1 as [|l' n' ns Hl Hc IH]; intros Hin.
  - by apply elem_of_nil in Hin.
  - simpl in Hin. apply elem_of_cons in Hin as [->|Hin].
    + exists ((l', n') :: ns). split; [by constructor|done].
    + destruct (IH Hin) as (ns' & Hc' & Hlen). exists ns'. split; [done|simpl; lia].
Qed.

(** Chains are acyclic: the head does not occur again further down. *)
Lemma chain_head_fresh h l n ns :
  chain h (Some l) ((l, n) :: ns) → l ∉ ns.*1.
Proof.
  intros Hc Hin. inversion Hc as [|? ? ? Hl Htl]; subst.
  destruct (chain_from_member _ _ _ _ Htl Hin) as (ns' & Hc' & Hlen).
  pose proof (chain_functional _ _ _ _ Hc Hc') as <-. simpl in Hlen. lia.
Qed.

Lemma chain_NoDup h p ns : chain h p ns → NoDup ns.*1.
Proof.
  induction 1 as [|l n ns Hl Hc IH]; simpl; constructor; [|done].
  apply (chain_head_fresh h l n). by constructor.
Qed.

(** Allocation and deallocation away from a chain leave it alone. *)
Lemma chain_alloc h p ns l n :
  chain h p ns → h !! l = None → chain (<[l := n]> h) p ns.
Proof.
  intros Hc Hl. induction Hc as [|l' n' ns Hl' _ IH]; constructor; [|done].
  rewrite lookup_insert_ne; [done|congruence].
Qed.

Lemma chain_free h p ns l :
  chain h p ns → l ∉ ns.*1 → chain (base.delete l h) p ns.
Proof.
  intros Hc. induction Hc as [|l' n' ns Hl' _ IH]; simpl; intros Hl;
    constructor.
  - rewrite lookup_delete_ne; [done|]. intros ->. apply Hl. by left.
  - apply IH. intros Hin. apply Hl. by right.
Qed.

Lemma first_match_Some i ns l n :
  first_match i ns = Some (l, n) → (l, n) ∈ ns ∧ id n = i.
Proof.
  induction ns as [|[l' n'] ns IH]; simpl; [done|].
  destruct (Z.eqb_spec (id n') i) as [Heq|Hne].
  - intros [= -> ->]. split; [by left|done].
  - intros H. destruct (IH H). split; [by right|done].
Qed.

Lemma first_match_None i ns :
  first_match i ns = None ↔ ∀ l n, (l, n) ∈ ns → id n ≠ i.
Proof.
  induction ns as [|[l' n'] ns IH]; simpl.
  - split; [|done]. intros _ l n Hin. by apply elem_of_nil in Hin.
  - destruct (Z.eqb_spec (id n') i) as [Heq|Hne].
    + split; [done|]. intros H. destruct (H l' n'); [by left|done].
    + rewrite IH. split.
      * intros H l n [[= -> ->]|Hin]%elem_of_cons; eauto.
      * intros H l n Hin. apply (H l n). by right.
Qed.

End Chain_facts.

Section Operation_facts.
Context {T : Type}.
Implicit Types (h : gmap loc (Node T)) (m : Memory T) (p : ptr)
  (ns : list (loc * Node T)) (n : Node T) (l : loc).

(** *** insert *)

(** The first compare-and-swap of [insert] succeeds: one attempt is
    enough, whatever the memory. *)
Lemma insert_spec fuel i t m :
  insert (S fuel) i t m =
  Done tt {| sizeCounter := to_uint64 (sizeCounter m + 1);
             table := <[Triple_Hash.get i := alloc (heap m)]> (table m);
             heap := <[alloc (heap m) := mkNode i t (table m !! Triple_Hash.get i)]>
                       (heap m) |}.
Proof.
  unfold insert. run_monad.
  rewrite lookup_insert_eq. run_monad.
  rewrite decide_True by done. run_monad.
  by rewrite insert_insert_eq.
Qed.

(** *** find *)

Lemma find_loop_frame fuel i p m r m' :
  find_loop fuel i p m = Done r m' → m' = m.
Proof.
  revert p. induction fuel as [|fuel IH]; intros p; simpl; [done|].
  destruct p as [l|]; unfold_monad; [|by intros [= _ ->]].
  destruct (heap m !! l) as [n|]; [|done].
  destruct (id n =? i); [by intros [= _ ->]|apply IH].
Qed.

Lemma find_loop_chain fuel i p m ns :
  chain (heap m) p ns → (length ns < fuel)%nat →
  find_loop fuel i p m = Done (fst <$> first_match i ns) m.
Proof.
  intros Hc. revert fuel.
  induction Hc as [|l n ns Hl _ IH]; intros [|fuel] Hlen; simpl in *; try lia.
  - done.
  - unfold_monad. rewrite Hl.
    destruct (id n =? i); [done|]. apply IH. lia.
Qed.

(** *** erase *)

Lemma lookup_head_store b b' q (tbl : gmap Z loc) :
  head_store b q tbl !! b' = if decide (b = b') then q else tbl !! b'.
Proof.
  destruct q as [l|]; simpl.
  - by rewrite lookup_insert.
  - rewrite lookup_delete. by case_decide.
Qed.

(** No node of the chain has the key: the loop runs off its end and
    leaves the memory as it found it. *)
Lemma erase_loop_no_match fuel i b p m ns :
  chain (heap m) p ns → first_match i ns = None → (length ns < fuel)%nat →
  erase_loop fuel i b p m = Done false m.
Proof.
  intros Hc. revert fuel.
  induction Hc as [|l n ns Hl _ IH]; intros [|fuel] Hnone Hlen;
    simpl in *; try lia.
  - done.
  - run_monad. rewrite Hl. simpl.
    destruct (id n =? i); [done|]. rewrite Hl. apply IH; [done|lia].
Qed.

(** The head of the bucket has the key: the compare-and-swap succeeds,
    the node is freed and the function returns at once. *)
Lemma erase_loop_head_match fuel i b m l n :
  table m !! b = Some l → heap m !! l = Some n → id n = i →
  erase_loop (S fuel) i b (Some l) m =
  Done true {| sizeCounter := sizeCounter m;
               table := head_store b (next n) (table m);
               heap := base.delete l (heap m) |}.
Proof.
  intros Hb Hl Hid. simpl. run_monad. rewrite Hl. simpl.
  rewrite (proj2 (Z.eqb_eq _ _) Hid).
  rewrite decide_True by done. simpl. by rewrite Hl.
Qed.

(** The first node with the key lies behind a head with another key:
    the compare-and-swap is applied to the bucket head, fails, reloads
    the head and the scan resumes after it, for ever; the memory never
    changes. *)
Lemma erase_loop_spins i b m l0 n0 ns0 :
  table m !! b = Some l0 → heap m !! l0 = Some n0 →
  chain (heap m) (next n0) ns0 → l0 ∉ ns0.*1 →
  is_Some (first_match i ns0) →
  ∀ fuel p ns,
    chain (heap m) p ns → l0 ∉ ns.*1 → is_Some (first_match i ns) →
    erase_loop fuel i b p m = Timeout m.
Proof.
  intros Hb Hl0 Hc0 Hfresh0 Hm0.
  induction fuel as [|fuel IH]; intros p ns Hc Hfresh Hm; [done|].
  destruct Hc as [|l n ns Hl Hc]; [by destruct Hm|].
  simpl in *. run_monad. rewrite Hl. simpl.
  destruct (id n =? i).
  - rewrite decide_False; last first.
    { rewrite Hb. intros [= ->]. apply Hfresh. by left. }
    rewrite Hb, Hl0. by apply (IH _ ns0).
  - rewrite Hl. apply (IH _ ns); [done| |done].
    intros Hin. apply Hfresh. by right.
Qed.

Lemma erase_absent fuel i m ns :
  bucket m (Triple_Hash.get i) ns → first_match i ns = None →
  (length ns < fuel)%nat →
  erase fuel i m =
  Done tt {| sizeCounter := to_uint64 (sizeCounter m - 1);
             table := table m; heap := heap m |}.
Proof.
  intros Hc Hnone Hlen. unfold erase. run_monad.
  by rewrite (erase_loop_no_match _ _ _ _ _ ns).
Qed.

Lemma erase_head fuel i m l n :
  table m !! Triple_Hash.get i = Some l → heap m !! l = Some n → id n = i →
  erase (S fuel) i m =
  Done tt {| sizeCounter := sizeCounter m;
             table := head_store (Triple_Hash.get i) (next n) (table m);
             heap := base.delete l (heap m) |}.
Proof.
  intros Hb Hl Hid. unfold erase. unfold_monad. rewrite Hb.
  by rewrite (erase_loop_head_match _ _ _ _ l n).
Qed.

Lemma erase_mid_chain i m l0 n0 ns :
  bucket m (Triple_Hash.get i) ((l0, n0) :: ns) → id n0 ≠ i →
  is_Some (first_match i ns) →
  ∀ fuel, erase fuel i m = Timeout m.
Proof.
  intros Hc Hid Hm fuel. unfold bucket in Hc.
  inversion Hc as [|? ? ? Hl Htl Hb]; subst.
  assert (Hfresh : l0 ∉ ns.*1).
  { apply (chain_head_fresh (heap m) l0 n0). by constructor. }
  symmetry in Hb. pose proof Hb as Hb'.
  unfold erase. unfold_monad. rewrite Hb.
  destruct fuel as [|fuel]; [done|]. simpl. run_monad.
  rewrite Hl. simpl. rewrite (proj2 (Z.eqb_neq _ _) Hid). rewrite Hl.
  by rewrite (erase_loop_spins i _ m l0 n0 ns Hb' Hl Htl Hfresh Hm _ _ ns).
Qed.

(** *** What a returning call has done *)

Lemma insert_Done fuel i t m m' :
  insert fuel i t m = Done tt m' →
  m' = {| sizeCounter := to_uint64 (sizeCounter m + 1);
          table := <[Triple_Hash.get i := alloc (heap m)]> (table m);
          heap := <[alloc (heap m) := mkNode i t (table m !! Triple_Hash.get i)]>
                    (heap m) |}.
Proof.
  destruct fuel as [|fuel].
  - unfold insert. run_monad. by rewrite lookup_insert_eq.
  - rewrite insert_spec. by intros [= <-].
Qed.

Lemma erase_loop_Done fuel i b p m r m' :
  erase_loop fuel i b p m = Done r m' →
  (r = false ∧ m' = m) ∨
  (r = true ∧ ∃ l n,
      table m !! b = Some l ∧ heap m !! l = Some n ∧ id n = i ∧
      m' = {| sizeCounter := sizeCounter m;
              table := head_store b (next n) (table m);
              heap := base.delete l (heap m) |}).
Proof.
  revert p. induction fuel as [|fuel IH]; intros p; [done|].
  destruct p as [l|]; simpl; run_monad; [|intros [= <- <-]; by left].
  destruct (heap m !! l) as [n|] eqn:Hl; [|done]. simpl.
  destruct (Z.eqb_spec (id n) i) as [Hid|Hid].
  - case_decide as Hb; simpl.
    + rewrite Hl. intros [= <- <-]. right. split; [done|]. by exists l, n.
    + destruct (table m !! b) as [l'|]; [|done].
      destruct (heap m !! l') as [n'|]; [apply IH|done].
  - rewrite Hl. apply IH.
Qed.

Lemma erase_Done fuel i m m' :
  erase fuel i m = Done tt m' →
  m' = {| sizeCounter := to_uint64 (sizeCounter m - 1);
          table := table m; heap := heap m |} ∨
  ∃ l n,
    table m !! Triple_Hash.get i = Some l ∧ heap m !! l = Some n ∧ id n = i ∧
    m' = {| sizeCounter := sizeCounter m;
            table := head_store (Triple_Hash.get i) (next n) (table m);
            heap := base.delete l (heap m) |}.
Proof.
  unfold erase. unfold_monad.
  destruct (erase_loop _ _ _ _ m) as [r m1| |m1] eqn:Hloop; [|done..].
  apply erase_loop_Done in Hloop as [[-> ->]|[-> (l & n & Hb & Hl & Hid & ->)]].
  - intros [= <-]. by left.
  - intros [= <-]. right. by exists l, n.
Qed.

End Operation_facts.

(** ** Reachable memories are well formed *)

Section Invariant.
Context {T : Type}.
Implicit Types (h : gmap loc (Node T)) (m : Memory T) (p : ptr)
  (ns : list (loc * Node T)) (n : Node T) (l : loc).

Lemma chain_of_free h p ns l :
  chain (base.delete l h) p ns → chain h p ns.
Proof.
  induction 1 as [|l' n' ns Hl' _ IH]; constructor; [|done].
  by apply lookup_delete_Some in Hl' as [_ ?].
Qed.

Lemma well_formed_empty : well_formed (@empty T).
Proof.
  split.
  - intros b. exists []. unfold bucket. simpl. rewrite lookup_empty. constructor.
  - intros b1 b2 ns1 ns2 l H1 _ Hin. unfold bucket in H1. simpl in H1.
    rewrite lookup_empty in H1. inversion H1; subst. by apply elem_of_nil in Hin.
Qed.

Lemma well_formed_counter m c :
  well_formed m →
  well_formed {| sizeCounter := c; table := table m; heap := heap m |}.
Proof. done. Qed.

(** The chain a bucket has after an insertion. *)
Lemma bucket_insert m b l0 c n0 b' ns :
  heap m !! l0 = None → next n0 = table m !! b →
  bucket m b' ns →
  bucket {| sizeCounter := c; table := <[b := l0]> (table m);
            heap := <[l0 := n0]> (heap m) |} b'
         (if decide (b = b') then (l0, n0) :: ns else ns).
Proof.
  intros Hl0 Hnext Hc. unfold bucket in *. simpl. case_decide as Hb.
  - subst b'. rewrite lookup_insert_eq. constructor.
    + by rewrite lookup_insert_eq.
    + rewrite Hnext. by apply chain_alloc.
  - rewrite lookup_insert_ne by done. by apply chain_alloc.
Qed.

Lemma well_formed_insert m b l0 c n0 :
  heap m !! l0 = None → next n0 = table m !! b →
  well_formed m →
  well_formed {| sizeCounter := c; table := <[b := l0]> (table m);
                 heap := <[l0 := n0]> (heap m) |}.
Proof.
  intros Hl0 Hnext [Hex Hdisj].
  set (m' := {| sizeCounter := c; table := <[b := l0]> (table m);
                heap := <[l0 := n0]> (heap m) |}).
  assert (Hold : ∀ b' ns' l, bucket m' b' ns' → l ∈ ns'.*1 →
            (l = l0 ∧ b' = b) ∨ (l ≠ l0 ∧ ∃ ns, bucket m b' ns ∧ l ∈ ns.*1)).
  { intros b' ns' l Hc' Hin. destruct (Hex b') as [ns Hc].
    pose proof (bucket_insert m b l0 c n0 b' ns Hl0 Hnext Hc) as Hc''.
    pose proof (chain_functional _ _ _ _ Hc' Hc'') as ->.
    assert (Hlive : l ∈ ns.*1 → l ≠ l0).
    { intros Hin' ->. destruct (chain_lookup_loc _ _ _ _ Hc Hin'). congruence. }
    case_decide as Hb.
    - simpl in Hin. apply elem_of_cons in Hin as [->|Hin]; [by left|].
      right. split; [auto|]. by exists ns.
    - right. split; [auto|]. by exists ns. }
  split.
  - intros b'. destruct (Hex b') as [ns Hc]. eexists.
    by apply (bucket_insert m b l0 c n0 b' ns).
  - intros b1 b2 ns1 ns2 l H1 H2 Hin1 Hin2.
    destruct (Hold _ _ _ H1 Hin1) as [[-> ->]|[Hne1 (ns1' & H1' & Hin1')]];
      destruct (Hold _ _ _ H2 Hin2) as [[? ->]|[Hne2 (ns2' & H2' & Hin2')]];
      try done.
    by apply (Hdisj b1 b2 ns1' ns2' l).
Qed.

Lemma well_formed_erase_head m b l n c :
  table m !! b = Some l → heap m !! l = Some n →
  well_formed m →
  well_formed {| sizeCounter := c; table := head_store b (next n) (table m);
                 heap := base.delete l (heap m) |}.
Proof.
  intros Hb Hl [Hex Hdisj].
  set (m' := {| sizeCounter := c; table := head_store b (next n) (table m);
                heap := base.delete l (heap m) |}).
  destruct (Hex b) as [nsb Hcb]. unfold bucket in Hcb. rewrite Hb in Hcb.
  inversion Hcb as [|? n' nst Hl' Htl]; subst.
  assert (n' = n) as -> by congruence.
  assert (Hfresh : l ∉ nst.*1) by by apply (chain_head_fresh (heap m) l n).
  assert (Hold : ∀ b' ns' l', bucket m' b' ns' → l' ∈ ns'.*1 →
            ∃ ns, bucket m b' ns ∧ l' ∈ ns.*1).
  { intros b' ns' l' Hc' Hin. unfold bucket in Hc'. simpl in Hc'.
    rewrite lookup_head_store in Hc'. apply chain_of_free in Hc'.
    case_decide as Hbb.
    - subst b'. exists ((l, n) :: ns'). split.
      + unfold bucket. rewrite Hb. by constructor.
      + simpl. by right.
    - by exists ns'. }
  split.
  - intros b'. unfold bucket. simpl. rewrite lookup_head_store.
    case_decide as Hbb.
    + exists nst. by apply chain_free.
    + destruct (Hex b') as [ns Hc]. exists ns. apply chain_free; [done|].
      intros Hin. apply Hbb.
      apply (Hdisj b b' ((l, n) :: nst) ns l); [|done|by left|done].
      unfold bucket. by rewrite Hb.
  - intros b1 b2 ns1 ns2 l' H1 H2 Hin1 Hin2.
    destruct (Hold _ _ _ H1 Hin1) as (ns1' & H1' & Hin1').
    destruct (Hold _ _ _ H2 Hin2) as (ns2' & H2' & Hin2').
    by apply (Hdisj b1 b2 ns1' ns2' l').
Qed.

Lemma reachable_well_formed m : reachable m → well_formed m.
Proof.
  induction 1 as [|fuel i t m m' _ IH Hins|fuel i m m' _ IH Her].
  - apply well_formed_empty.
  - apply insert_Done in Hins as ->.
    apply well_formed_insert; [apply alloc_fresh|done|done].
  - apply erase_Done in Her as [->|(l & n & Hb & Hl & _ & ->)].
    + by apply well_formed_counter.
    + by apply well_formed_erase_head.
Qed.

Lemma reachable_bucket m b : reachable m → ∃ ns, bucket m b ns.
Proof. intros Hr. by destruct (reachable_well_formed m Hr) as [Hex _]. Qed.

End Invariant.

(** ** The operations on concrete tables *)

Section Concrete.

Example insert_100 fuel : insert (S fuel) 100 42 empty = Done tt table_100.
Proof. rewrite insert_spec. reflexivity. Qed.

Example insert_collision fuel1 fuel2 :
  (insert (S fuel1) 1 42;; insert (S fuel2) 201850 43) empty
  = Done tt table_collision.
Proof.
  unfold mbind, M_bind, bind. rewrite insert_spec, insert_spec. reflexivity.
Qed.

Lemma reachable_table_100 : reachable table_100.
Proof. eapply reachable_insert; [apply reachable_empty|apply (insert_100 0)]. Qed.

Lemma reachable_table_collision : reachable table_collision.
Proof.
  eapply (reachable_insert 1 201850 43); [eapply (reachable_insert 1 1 42)|].
  - apply reachable_empty.
  - apply insert_spec.
  - rewrite insert_spec. reflexivity.
Qed.

Lemma bucket_table_collision :
  bucket table_collision 991601
    [(2%positive, mkNode 201850 43 (Some 1%positive));
     (1%positive, mkNode 1 42 None)].
Proof. unfold bucket. repeat constructor. Qed.

End Concrete.

(** ** Lookup after insertion *)

Section Lookup.
Context {T : Type}.
Implicit Types (h : gmap loc (Node T)) (m : Memory T) (p : ptr)
  (ns : list (loc * Node T)) (n : Node T) (l : loc).

(** [find] on a memory whose bucket head holds the key. *)
Lemma find_value_head fuel i m l n :
  table m !! Triple_Hash.get i = Some l → heap m !! l = Some n → id n = i →
  find_value (S fuel) i m = Done (Some (data n)) m.
Proof.
  intros Hb Hl Hid. unfold find_value, find. run_monad.
  rewrite Hb, Hl. simpl. rewrite (proj2 (Z.eqb_eq _ _) Hid). simpl.
  by rewrite Hl.
Qed.

(** [find] on a memory whose bucket head holds another key and points to
    a node holding the key. *)
Lemma find_value_second fuel i m l n l' n' :
  table m !! Triple_Hash.get i = Some l → heap m !! l = Some n → id n ≠ i →
  next n = Some l' → heap m !! l' = Some n' → id n' = i →
  find_value (S (S fuel)) i m = Done (Some (data n')) m.
Proof.
  intros Hb Hl Hid Hnext Hl' Hid'. unfold find_value, find. run_monad.
  rewrite Hb, Hl. simpl. rewrite (proj2 (Z.eqb_neq _ _) Hid). rewrite Hnext.
  rewrite Hl'. simpl. rewrite (proj2 (Z.eqb_eq _ _) Hid'). simpl.
  by rewrite Hl'.
Qed.

(** Two keys inserted one after the other are both found, the first
    through the second's node when they share a bucket. *)
Lemma find_after_inserts fuel1 fuel2 fuel m (ka kb : Z) (pa pb : T) :
  ka ≠ kb →
  ∃ m', (insert (S fuel1) ka pa;; insert (S fuel2) kb pb) m = Done tt m' ∧
        find_value (S (S fuel)) ka m' = Done (Some pa) m' ∧
        find_value (S (S fuel)) kb m' = Done (Some pb) m'.
Proof.
  intros Hne. unfold mbind at 1, M_bind at 1, bind at 1.
  rewrite insert_spec, insert_spec. simpl. eexists. split; [done|].
  set (la := alloc (heap m)).
  set (na := mkNode ka pa (table m !! Triple_Hash.get ka)).
  set (lb := alloc (<[la := na]> (heap m))).
  assert (Hlab : lb ≠ la).
  { intros Heq. pose proof (alloc_fresh (<[la := na]> (heap m))) as Hf.
    fold lb in Hf. rewrite Heq, lookup_insert_eq in Hf. done. }
  split.
  - destruct (decide (Triple_Hash.get ka = Triple_Hash.get kb)) as [Hb|Hb].
    + eapply (find_value_second _ ka _ lb _ la na); simpl.
      * by rewrite Hb, lookup_insert_eq.
      * by rewrite lookup_insert_eq.
      * done.
      * by rewrite <- Hb, lookup_insert_eq.
      * rewrite lookup_insert_ne by done. by rewrite lookup_insert_eq.
      * done.
    + apply (find_value_head _ ka _ la na); simpl.
      * rewrite lookup_insert_ne by done. by rewrite lookup_insert_eq.
      * rewrite lookup_insert_ne by done. by rewrite lookup_insert_eq.
      * done.
  - eapply (find_value_head _ kb _ lb (mkNode kb pb _)); simpl.
    + by rewrite lookup_insert_eq.
    + by rewrite lookup_insert_eq.
    + done.
Qed.

(** C6: for distinct keys k1 and k2 inserted with payloads p1 and p2 into
    any table, in either order, a following [find(k1)] gives p1 and
    [find(k2)] gives p2. *)
Theorem find_distinct_keys_either_order (m : Memory T) (k1 k2 : Z) (p1 p2 : T)
    (fuel1 fuel2 fuel : nat) :
  k1 ≠ k2 →
  (∃ m', (insert (S fuel1) k1 p1;; insert (S fuel2) k2 p2) m = Done tt m' ∧
         find_value (S (S fuel)) k1 m' = Done (Some p1) m' ∧
         find_value (S (S fuel)) k2 m' = Done (Some p2) m') ∧
  (∃ m', (insert (S fuel1) k2 p2;; insert (S fuel2) k1 p1) m = Done tt m' ∧
         find_value (S (S fuel)) k1 m' = Done (Some p1) m' ∧
         find_value (S (S fuel)) k2 m' = Done (Some p2) m').
Proof.
  intros Hne. split.
  - by apply find_after_inserts.
  - destruct (find_after_inserts fuel1 fuel2 fuel m k2 k1 p2 p1)
      as (m' & Hins & H2 & H1); [done|].
    by exists m'.
Qed.

Lemma find_chain fuel i m ns :
  bucket m (Triple_Hash.get i) ns → (length ns < fuel)%nat →
  find fuel i m = Done (fst <$> first_match i ns) m.
Proof.
  intros Hc Hlen. unfold find. unfold_monad. by apply find_loop_chain.
Qed.

Lemma find_value_chain fuel i m ns :
  bucket m (Triple_Hash.get i) ns → (length ns < fuel)%nat →
  find_value fuel i m = Done (data ∘ snd <$> first_match i ns) m.
Proof.
  intros Hc Hlen. unfold find_value. unfold mbind, M_bind, bind.
  rewrite (find_chain _ _ _ ns) by done.
  destruct (first_match i ns) as [[l n]|] eqn:Hm; simpl; [|done].
  apply first_match_Some in Hm as [Hin _].
  unfold_monad. by rewrite (chain_lookup _ _ _ _ _ Hc Hin).
Qed.

(** C7: [find(k)] walks the chain of k's bucket from its head and returns
    the first node whose key is k (its address, and through it its
    payload), and the empty optional when no node of the chain has the
    key; [insert] puts the new node in front of the chain, so the first
    match is the most recent insertion: after inserting k with t1 and
    then with t2, [find(k)] gives t2. *)
Theorem find_returns_first_match (m : Memory T) (i : Z)
    (ns : list (loc * Node T)) (fuel : nat) (t1 t2 : T) :
  bucket m (Triple_Hash.get i) ns → (length ns < fuel)%nat →
  find fuel i m = Done (fst <$> first_match i ns) m ∧
  find_value fuel i m = Done (data ∘ snd <$> first_match i ns) m ∧
  (first_match i ns = None → find fuel i m = Done None m) ∧
  (∃ m1 l1,
      insert 1 i t1 m = Done tt m1 ∧
      bucket m1 (Triple_Hash.get i)
        ((l1, mkNode i t1 (table m !! Triple_Hash.get i)) :: ns)) ∧
  (∃ m2,
      (insert 1 i t1;; insert 1 i t2) m = Done tt m2 ∧
      find_value fuel i m2 = Done (Some t2) m2).
Proof.
  intros Hc Hlen. split; [|split; [|split; [|split]]].
  - by apply find_chain.
  - by apply find_value_chain.
  - intros Hnone. rewrite (find_chain _ _ _ ns) by done. by rewrite Hnone.
  - rewrite insert_spec. eexists _, (alloc (heap m)). split; [done|].
    pose proof (bucket_insert m (Triple_Hash.get i) (alloc (heap m))
      (to_uint64 (sizeCounter m + 1))
      (mkNode i t1 (table m !! Triple_Hash.get i)) (Triple_Hash.get i) ns
      (alloc_fresh _) eq_refl Hc) as Hb.
    by rewrite decide_True in Hb.
  - unfold mbind at 1, M_bind at 1, bind at 1.
    rewrite insert_spec, insert_spec. eexists. split; [done|].
    destruct fuel as [|fuel]; [lia|].
    eapply (find_value_head _ i _ _ (mkNode i t2 _)); simpl.
    + by rewrite lookup_insert_eq.
    + by rewrite lookup_insert_eq.
    + done.
Qed.

(** *** find is read-only *)

Lemma find_loop_outcome fuel i p m :
  find_loop fuel i p m = Fault ∨ find_loop fuel i p m = Timeout m ∨
  ∃ r, find_loop fuel i p m = Done r m.
Proof.
  revert p. induction fuel as [|fuel IH]; intros p; simpl; [by right; left|].
  destruct p as [l|]; run_monad; [|right; right; by eexists].
  destruct (heap m !! l) as [n|]; [|by left]. simpl.
  destruct (id n =? i); [right; right; by eexists|apply IH].
Qed.

(** C9: [find(k)] never writes: on every memory and for every key, at the
    end of the call (and at any point before) the memory, that is every
    bucket head, every node with its key, payload and next link, and the
    counter, is the memory the call started from; and on every reachable
    memory the call does return. *)
Theorem find_never_mutates (m : Memory T) (i : Z) :
  (∀ fuel, find fuel i m = Fault ∨ find fuel i m = Timeout m ∨
           ∃ r, find fuel i m = Done r m) ∧
  (∀ fuel r m', find fuel i m = Done r m' →
      table m' = table m ∧ heap m' = heap m ∧ sizeCounter m' = sizeCounter m) ∧
  (reachable m →
     ∃ fuel0 r, ∀ fuel, (fuel0 ≤ fuel)%nat → find fuel i m = Done r m).
Proof.
  split; [|split].
  - intros fuel. unfold find. unfold_monad. apply find_loop_outcome.
  - intros fuel r m'. unfold find. unfold_monad.
    intros Hf. by apply find_loop_frame in Hf as ->.
  - intros Hr. destruct (reachable_bucket m (Triple_Hash.get i) Hr) as [ns Hc].
    exists (S (length ns)), (fst <$> first_match i ns). intros fuel Hlen.
    apply find_chain; [done|lia].
Qed.

End Lookup.

(** ** Removal *)

Section Erase.
Context {T : Type}.
Implicit Types (h : gmap loc (Node T)) (m : Memory T) (p : ptr)
  (ns : list (loc * Node T)) (n : Node T) (l : loc).

(** The counter is a [uint64_t]: it stays below 2^64. *)
Lemma reachable_counter_range m :
  reachable m → 0 ≤ sizeCounter m < uint64_modulus.
Proof.
  induction 1 as [|fuel i t m m' _ IH Hins|fuel i m m' _ IH Her].
  - by compute.
  - apply insert_Done in Hins as ->. apply to_uint64_range.
  - apply erase_Done in Her as [->|(l & n & _ & _ & _ & ->)]; [|done].
    apply to_uint64_range.
Qed.

(** C2: [erase(k)] of a key no node of k's bucket holds returns and
    leaves every bucket head and every node as they were, but it
    decrements the counter modulo 2^64, so [size()] changes. *)
Theorem erase_absent_decrements (m : Memory T) (i : Z)
    (ns : list (loc * Node T)) (fuel : nat) :
  bucket m (Triple_Hash.get i) ns → first_match i ns = None →
  (length ns < fuel)%nat →
  ∃ m', erase fuel i m = Done tt m' ∧
        table m' = table m ∧ heap m' = heap m ∧
        sizeCounter m' = to_uint64 (sizeCounter m - 1) ∧
        (0 ≤ sizeCounter m < uint64_modulus → sizeCounter m' ≠ sizeCounter m).
Proof.
  intros Hc Hnone Hlen. rewrite (erase_absent _ _ _ ns) by done.
  eexists. split; [done|]. simpl. repeat split.
  intros Hrange Heq. unfold to_uint64, uint64_modulus in *.
  destruct (decide (sizeCounter m = 0)) as [H0|H0].
  - rewrite H0 in Heq. by compute in Heq.
  - rewrite Z.mod_small in Heq by lia. lia.
Qed.

(** C3: when the first node holding the key lies behind a bucket head
    holding another key, [erase] never unlinks it: the compare-and-swap is
    always applied to the bucket head, never to the predecessor's next
    link, and the call is still running after any number of iterations
    with the chain exactly as it was, the key's node still linked. *)
Theorem erase_mid_chain_never_unlinks (m : Memory T) (i : Z) (l0 : loc)
    (n0 : Node T) (ns : list (loc * Node T)) :
  bucket m (Triple_Hash.get i) ((l0, n0) :: ns) → id n0 ≠ i →
  is_Some (first_match i ns) →
  ∀ fuel, ∃ m', erase fuel i m = Timeout m' ∧
                table m' = table m ∧ heap m' = heap m ∧
                bucket m' (Triple_Hash.get i) ((l0, n0) :: ns) ∧
                first_match i ((l0, n0) :: ns) = first_match i ns.
Proof.
  intros Hc Hid Hm fuel. exists m.
  rewrite (erase_mid_chain i m l0 n0 ns) by done.
  repeat split; [done|]. simpl. by rewrite (proj2 (Z.eqb_neq _ _) Hid).
Qed.

(** C10: the counter is an unsigned 64-bit value updated modulo 2^64:
    [erase(k)] on a freshly constructed table decrements it on the
    not-found path although no node was removed, and [size()] then
    returns 2^64 - 1. *)
Theorem erase_on_empty_wraps_counter (i : Z) (fuel : nat) :
  ∃ m' : Memory T,
    erase (S fuel) i empty = Done tt m' ∧
    size m' = Done (2 ^ 64 - 1) m' ∧
    table m' = ∅ ∧ heap m' = ∅.
Proof.
  eexists. split; [|split; [|split]].
  - unfold erase. run_monad. rewrite lookup_empty. simpl. reflexivity.
  - reflexivity.
  - reflexivity.
  - reflexivity.
Qed.

End Erase.

(** *** Removal on the concrete tables *)

Section Erase_concrete.

Lemma erase_100 fuel : erase (S fuel) 100 table_100 = Done tt table_100_erased.
Proof.
  rewrite (erase_head _ _ _ 1%positive (mkNode 100 42 None)) by done.
  reflexivity.
Qed.

(** C1: evaluated on [insert(100, 42)] followed by [erase(100)] on a
    fresh table: [find(100)] is then absent, but [size()] returns 1 as
    it did before the erase, not 0: the successful path returns before
    the counter is touched. *)
Theorem erase_present_keeps_size (fuel : nat) :
  insert (S fuel) 100 42 empty = Done tt table_100 ∧
  size table_100 = Done 1 table_100 ∧
  erase (S fuel) 100 table_100 = Done tt table_100_erased ∧
  find_value (S fuel) 100 table_100_erased = Done None table_100_erased ∧
  size table_100_erased = Done 1 table_100_erased.
Proof.
  split; [apply insert_100|]. split; [done|].
  split; [apply erase_100|]. split; [|done].
  unfold find_value, find. run_monad. by rewrite lookup_empty.
Qed.

(** C4: [insert] returns after one compare-and-swap on every memory and
    [find] returns on every reachable memory, but [erase] does not: on the
    reachable table [table_collision], where key 1 lies behind key 201850
    in bucket 991601, [erase(1)] is still running after any number of
    iterations. *)
Theorem erase_does_not_terminate :
  (∀ (m : Memory Z) i t fuel, ∃ m', insert (S fuel) i t m = Done tt m') ∧
  (∀ (m : Memory Z) i, reachable m → ∃ fuel r, find fuel i m = Done r m) ∧
  reachable table_collision ∧
  (∀ fuel, erase fuel 1 table_collision = Timeout table_collision).
Proof.
  split; [|split; [|split]].
  - intros m i t fuel. rewrite insert_spec. by eexists.
  - intros m i Hr.
    destruct (reachable_bucket m (Triple_Hash.get i) Hr) as [ns Hc].
    exists (S (length ns)), (fst <$> first_match i ns).
    apply find_chain; [done|lia].
  - apply reachable_table_collision.
  - apply (erase_mid_chain 1 table_collision 2%positive
             (mkNode 201850 43 (Some 1%positive))
             [(1%positive, mkNode 1 42 None)]).
    + apply bucket_table_collision.
    + done.
    + by eexists.
Qed.

(** C5: [erase] frees the node in the call that unlinks it.  Thread A
    starts [find(100)] on [table_100] and loads the bucket head; thread B
    runs [erase(100)] to its end; the node A holds is no longer in the
    heap and A's next step reads freed memory. *)
Theorem erase_frees_node_in_use :
  head_load (Triple_Hash.get 100) table_100 = Done (Some 1%positive) table_100 ∧
  (∀ fuel, erase (S fuel) 100 table_100 = Done tt table_100_erased) ∧
  heap table_100_erased !! 1%positive = None ∧
  (∀ fuel, find_loop (S fuel) 100 (Some 1%positive) table_100_erased = Fault).
Proof.
  split; [done|]. split; [apply erase_100|]. split; [done|].
  intros fuel. simpl. run_monad. by rewrite lookup_empty.
Qed.

End Erase_concrete.

(** ** Instances on concrete tables *)

Section Instances.

Abbreviation node_1 := (mkNode 1 42 None : Node Z).
Abbreviation node_201850 := (mkNode 201850 43 (Some 1%positive) : Node Z).

(** [erase(5)] on a fresh table. *)
Lemma erase_absent_decrements_empty :
  ∃ m' : Memory Z,
    erase 1 5 empty = Done tt m' ∧
    table m' = ∅ ∧ heap m' = ∅ ∧
    sizeCounter m' = to_uint64 (0 - 1) ∧
    (0 ≤ 0 < uint64_modulus → sizeCounter m' ≠ 0).
Proof.
  apply (erase_absent_decrements (@empty Z) 5 [] 1).
  - apply chain_nil.
  - reflexivity.
  - simpl. lia.
Defined.

(** [erase(1)] on [table_collision], seven iterations in. *)
Lemma erase_mid_chain_collision :
  ∃ m' : Memory Z,
    erase 7 1 table_collision = Timeout m' ∧
    table m' = table table_collision ∧ heap m' = heap table_collision ∧
    bucket m' (Triple_Hash.get 1)
      [(2%positive, node_201850); (1%positive, node_1)] ∧
    first_match 1 [(2%positive, node_201850); (1%positive, node_1)]
    = first_match 1 [(1%positive, node_1)].
Proof.
  apply (erase_mid_chain_never_unlinks table_collision 1 2%positive
           node_201850 [(1%positive, node_1)]).
  - apply bucket_table_collision.
  - discriminate.
  - exists (1%positive, node_1). reflexivity.
Defined.

(** Keys 1 and 201850, which share bucket 991601, inserted into a fresh
    table in either order. *)
Lemma find_distinct_keys_collision :
  (∃ m' : Memory Z,
      (insert 1 1 42;; insert 1 201850 43) empty = Done tt m' ∧
      find_value 2 1 m' = Done (Some 42) m' ∧
      find_value 2 201850 m' = Done (Some 43) m') ∧
  (∃ m' : Memory Z,
      (insert 1 201850 43;; insert 1 1 42) empty = Done tt m' ∧
      find_value 2 1 m' = Done (Some 42) m' ∧
      find_value 2 201850 m' = Done (Some 43) m').
Proof.
  apply (find_distinct_keys_either_order (@empty Z) 1 201850 42 43 0 0 0).
  discriminate.
Defined.

(** [find(1)] on [table_collision], and key 1 inserted twice more. *)
Lemma find_first_match_collision :
  find 3 1 table_collision = Done (Some 1%positive) table_collision ∧
  find_value 3 1 table_collision = Done (Some 42) table_collision ∧
  (first_match 1 [(2%positive, node_201850); (1%positive, node_1)] = None →
   find 3 1 table_collision = Done None table_collision) ∧
  (∃ m1 l1,
      insert 1 1 7 table_collision = Done tt m1 ∧
      bucket m1 (Triple_Hash.get 1)
        [(l1, mkNode 1 7 (Some 2%positive));
         (2%positive, node_201850); (1%positive, node_1)]) ∧
  (∃ m2,
      (insert 1 1 7;; insert 1 1 8) table_collision = Done tt m2 ∧
      find_value 3 1 m2 = Done (Some 8) m2).
Proof.
  apply (find_returns_first_match table_collision 1
           [(2%positive, node_201850); (1%positive, node_1)] 3 7 8).
  - apply bucket_table_collision.
  - simpl. lia.
Defined.

(** [find(1)] on [table_collision] leaves it as it is. *)
Lemma find_never_mutates_collision :
  (∀ fuel, find fuel 1 table_collision = Fault ∨
           find fuel 1 table_collision = Timeout table_collision ∨
           ∃ r, find fuel 1 table_collision = Done r table_collision) ∧
  (∀ fuel r m', find fuel 1 table_collision = Done r m' →
      table m' = table table_collision ∧ heap m' = heap table_collision ∧
      sizeCounter m' = sizeCounter table_collision) ∧
  (reachable table_collision →
     ∃ fuel0 r, ∀ fuel, (fuel0 ≤ fuel)%nat →
       find fuel 1 table_collision = Done r table_collision).
Proof. exact (find_never_mutates table_collision 1). Defined.

End Instances.

(** ** Structure of reachable memories *)

Section Structure.
Context {T : Type}.
Implicit Types (h : gmap loc (Node T)) (m : Memory T) (p : ptr)
  (ns : list (loc * Node T)) (n : Node T) (l : loc).

(** The chain a bucket has after the head of bucket [b0] was unlinked and
    freed. *)
Lemma bucket_erase_head m b0 l0 n0 c b ns :
  well_formed m → table m !! b0 = Some l0 → heap m !! l0 = Some n0 →
  bucket m b ns →
  bucket {| sizeCounter := c; table := head_store b0 (next n0) (table m);
            heap := base.delete l0 (heap m) |} b
         (if decide (b0 = b) then drop 1 ns else ns).
Proof.
  intros [Hex Hdisj] Hb Hl Hc. unfold bucket in *. simpl.
  rewrite lookup_head_store. case_decide as Hbb.
  - subst b. rewrite Hb in Hc. inversion Hc as [|? n' nst Hl' Htl]; subst.
    assert (n' = n0) as -> by congruence. simpl.
    apply chain_free; [done|]. by apply (chain_head_fresh (heap m) l0 n0).
  - apply chain_free; [done|]. intros Hin. apply Hbb.
    destruct (Hex b0) as [ns0 Hc0].
    apply (Hdisj b0 b ns0 ns l0); [done|done| |done].
    unfold bucket in Hc0. rewrite Hb in Hc0. inversion Hc0; subst. by left.
Qed.

Lemma keys_in_place_empty : keys_in_place (@empty T).
Proof.
  intros b ns l n Hc Hin. unfold bucket in Hc. simpl in Hc.
  rewrite lookup_empty in Hc. inversion Hc; subst. by apply elem_of_nil in Hin.
Qed.

Lemma no_leak_empty : no_leak (@empty T).
Proof. intros l n Hl. simpl in Hl. by rewrite lookup_empty in Hl. Qed.

Lemma placed_insert m i t c :
  well_formed m → keys_in_place m → no_leak m →
  let m' := {| sizeCounter := c;
               table := <[Triple_Hash.get i := alloc (heap m)]> (table m);
               heap := <[alloc (heap m) := mkNode i t (table m !! Triple_Hash.get i)]>
                         (heap m) |} in
  keys_in_place m' ∧ no_leak m'.
Proof.
  intros [Hex Hdisj] Hkeys Hleak m'.
  set (b0 := Triple_Hash.get i) in *. set (l0 := alloc (heap m)) in *.
  set (n0 := mkNode i t (table m !! b0)) in *.
  assert (Hnew : ∀ b ns, bucket m b ns →
            bucket m' b (if decide (b0 = b) then (l0, n0) :: ns else ns)).
  { intros b ns Hc. apply bucket_insert; [apply alloc_fresh|done|done]. }
  split.
  - intros b ns' l n Hc' Hin. destruct (Hex b) as [ns Hc].
    pose proof (chain_functional _ _ _ _ Hc' (Hnew b ns Hc)) as ->.
    case_decide as Hb.
    + apply elem_of_cons in Hin as [[= -> ->]|Hin]; [done|].
      by apply (Hkeys b ns l n).
    + by apply (Hkeys b ns l n).
  - intros l n Hl. simpl in Hl.
    destruct (decide (l = l0)) as [->|Hne].
    + rewrite lookup_insert_eq in Hl. injection Hl as <-. simpl.
      destruct (Hex b0) as [ns Hc]. exists ((l0, n0) :: ns). split; [|by left].
      pose proof (Hnew b0 ns Hc) as Hc'. by rewrite decide_True in Hc'.
    + rewrite lookup_insert_ne in Hl by done.
      destruct (Hleak l n Hl) as (ns & Hc & Hin).
      pose proof (Hnew _ ns Hc) as Hc'. eexists. split; [exact Hc'|].
      case_decide; [by right|done].
Qed.

Lemma placed_erase_head m b0 l0 n0 c :
  table m !! b0 = Some l0 → heap m !! l0 = Some n0 →
  well_formed m → keys_in_place m → no_leak m →
  let m' := {| sizeCounter := c; table := head_store b0 (next n0) (table m);
               heap := base.delete l0 (heap m) |} in
  keys_in_place m' ∧ no_leak m'.
Proof.
  intros Hb Hl Hwf Hkeys Hleak m'. pose proof Hwf as [Hex Hdisj].
  assert (Hnew : ∀ b ns, bucket m b ns →
            bucket m' b (if decide (b0 = b) then drop 1 ns else ns)).
  { intros b ns Hc. by apply bucket_erase_head. }
  split.
  - intros b ns' l n Hc' Hin. destruct (Hex b) as [ns Hc].
    pose proof (chain_functional _ _ _ _ Hc' (Hnew b ns Hc)) as ->.
    apply (Hkeys b ns l n); [done|].
    case_decide; [|done]. destruct ns; [done|]. simpl in Hin. by right.
  - intros l n Hl'. simpl in Hl'. apply lookup_delete_Some in Hl' as [Hne Hl'].
    destruct (Hleak l n Hl') as (ns & Hc & Hin).
    pose proof (Hnew _ ns Hc) as Hc'. eexists. split; [exact Hc'|].
    case_decide as Hbb; [|done].
    unfold bucket in Hc. rewrite <- Hbb, Hb in Hc.
    inversion Hc; subst. simpl.
    apply elem_of_cons in Hin as [[= -> _]|Hin]; done.
Qed.

Lemma reachable_placed m : reachable m → keys_in_place m ∧ no_leak m.
Proof.
  induction 1 as [|fuel i t m m' Hr [IH1 IH2] Hins|fuel i m m' Hr [IH1 IH2] Her].
  - split; [apply keys_in_place_empty|apply no_leak_empty].
  - apply insert_Done in Hins as ->.
    apply placed_insert; [by apply reachable_well_formed|done|done].
  - apply erase_Done in Her as [->|(l & n & Hb & Hl & _ & ->)]; [done|].
    apply placed_erase_head; [done|done|by apply reachable_well_formed|done|done].
Qed.

End Structure.

(** ** Memory safety and the meaning of a lookup *)

Section Safety.
Context {T : Type}.
Implicit Types (h : gmap loc (Node T)) (m : Memory T) (p : ptr)
  (ns : list (loc * Node T)) (n : Node T) (l : loc).

Lemma find_loop_sound fuel i p m l m' :
  find_loop fuel i p m = Done (Some l) m' →
  ∃ n, heap m !! l = Some n ∧ id n = i.
Proof.
  revert p. induction fuel as [|fuel IH]; intros p; simpl; [done|].
  destruct p as [l0|]; run_monad; [|done].
  destruct (heap m !! l0) as [n|] eqn:Hl; [|done]. simpl.
  destruct (Z.eqb_spec (id n) i) as [Hid|Hid]; [|apply IH].
  intros [= <- _]. by exists n.
Qed.

Lemma find_loop_no_fault fuel i p m ns :
  chain (heap m) p ns → find_loop fuel i p m ≠ Fault.
Proof.
  intros Hc. revert fuel.
  induction Hc as [|l n ns Hl _ IH]; intros [|fuel]; simpl; try done.
  run_monad. rewrite Hl. simpl. destruct (id n =? i); [done|apply IH].
Qed.

Lemma erase_loop_no_fault fuel i b p m ns0 ns :
  chain (heap m) (table m !! b) ns0 → chain (heap m) p ns →
  (is_Some p → is_Some (table m !! b)) →
  erase_loop fuel i b p m ≠ Fault.
Proof.
  intros Hc0. revert p ns.
  induction fuel as [|fuel IH]; intros p ns Hc Hp; [done|].
  destruct Hc as [|l n ns Hl Hc]; [done|].
  simpl. run_monad. rewrite Hl. simpl.
  destruct (Hp (ltac:(by eexists))) as [l0 Hb].
  assert (Hhead : ∃ n0 nst, heap m !! l0 = Some n0 ∧ chain (heap m) (next n0) nst).
  { rewrite Hb in Hc0. inversion Hc0; subst. eauto. }
  destruct Hhead as (n0 & nst & Hl0 & Htl).
  destruct (id n =? i).
  - case_decide as Hd; simpl.
    + by rewrite Hl.
    + rewrite Hb, Hl0. apply (IH _ nst); [done|]. intros _. by eexists.
  - rewrite Hl. apply (IH _ ns); [done|]. intros _. by eexists.
Qed.

(** Two memories in which the chains of a key's bucket have the same first
    match answer a lookup of the key alike. *)
Lemma find_same_first_match m m' k ns ns' fuel :
  bucket m (Triple_Hash.get k) ns → bucket m' (Triple_Hash.get k) ns' →
  first_match k ns' = first_match k ns →
  (length ns + length ns' < fuel)%nat →
  find fuel k m = Done (fst <$> first_match k ns) m ∧
  find fuel k m' = Done (fst <$> first_match k ns) m' ∧
  find_value fuel k m = Done (data ∘ snd <$> first_match k ns) m ∧
  find_value fuel k m' = Done (data ∘ snd <$> first_match k ns) m'.
Proof.
  intros Hc Hc' Heq Hlen. rewrite <- Heq at 2 4.
  repeat split;
    (apply find_chain || apply find_value_chain); (done || lia).
Qed.

End Safety.

(** ** Properties of the operations on reachable memories *)

Section Properties.
Context {T : Type}.
Implicit Types (h : gmap loc (Node T)) (m : Memory T) (p : ptr)
  (ns : list (loc * Node T)) (n : Node T) (l : loc).

(** X1: every memory a single thread reaches has null-terminated, acyclic
    bucket chains that share no node, every chained node lies in the bucket
    its key hashes to, every live node is linked in that bucket (nothing
    leaks), and the counter is below 2^64. *)
Theorem reachable_structure (m : Memory T) :
  reachable m →
  well_formed m ∧ keys_in_place m ∧ no_leak m ∧
  (∀ b ns, bucket m b ns → NoDup ns.*1) ∧
  0 ≤ sizeCounter m < 2 ^ 64.
Proof.
  intros Hr. destruct (reachable_placed m Hr) as [Hk Hn].
  split; [by apply reachable_well_formed|]. split; [done|]. split; [done|].
  split; [|by apply reachable_counter_range].
  intros b ns Hc. by eapply chain_NoDup.
Qed.

(** X2: on a reachable memory no operation of a single thread ever
    dereferences a null or freed pointer, whatever the key and however many
    iterations it runs. *)
Theorem operations_never_fault (m : Memory T) :
  reachable m →
  (∀ fuel i t, insert fuel i t m ≠ Fault) ∧
  (∀ fuel i, find fuel i m ≠ Fault) ∧
  (∀ fuel i, find_value fuel i m ≠ Fault) ∧
  (∀ fuel i, erase fuel i m ≠ Fault).
Proof.
  intros Hr.
  assert (Hfind : ∀ fuel i, find fuel i m ≠ Fault).
  { intros fuel i. destruct (reachable_bucket m (Triple_Hash.get i) Hr) as [ns Hc].
    unfold find. unfold_monad. by apply (find_loop_no_fault _ _ _ _ ns). }
  split; [|split; [done|split]].
  - intros [|fuel] i t; [|by rewrite insert_spec].
    unfold insert. run_monad. by rewrite lookup_insert_eq.
  - intros fuel i. unfold find_value. unfold mbind at 1, M_bind at 1, bind at 1.
    destruct (find fuel i m) as [r m1| |m1] eqn:Hf; [|by apply Hfind in Hf|done].
    destruct r as [l|]; [|done].
    unfold find in Hf. unfold_monad.
    pose proof (find_loop_frame _ _ _ _ _ _ Hf) as ->.
    apply find_loop_sound in Hf as (n & Hl & _). by rewrite Hl.
  - intros fuel i. destruct (reachable_bucket m (Triple_Hash.get i) Hr) as [ns Hc].
    unfold erase. unfold_monad.
    destruct (erase_loop fuel i _ _ m) as [r m1| |m1] eqn:He.
    + by destruct r.
    + by apply (erase_loop_no_fault _ _ _ _ _ ns ns) in He.
    + done.
Qed.

(** X3: on a reachable memory [find(k)] returns; it is absent exactly when
    no live node has key k, and a node it returns is live and has key k. *)
Theorem find_absent_iff_no_live_node (m : Memory T) (i : Z) :
  reachable m →
  ∃ fuel0 r, ∀ fuel, (fuel0 ≤ fuel)%nat →
    find fuel i m = Done r m ∧
    (r = None ↔ ∀ l n, heap m !! l = Some n → id n ≠ i) ∧
    (∀ l, r = Some l → ∃ n, heap m !! l = Some n ∧ id n = i).
Proof.
  intros Hr. destruct (reachable_placed m Hr) as [_ Hleak].
  destruct (reachable_bucket m (Triple_Hash.get i) Hr) as [ns Hc].
  exists (S (length ns)), (fst <$> first_match i ns). intros fuel Hlen.
  split; [apply find_chain; [done|lia]|]. split.
  - rewrite fmap_None, first_match_None. split.
    + intros Hno l n Hl Hid. destruct (Hleak l n Hl) as (ns' & Hc' & Hin).
      rewrite Hid in Hc'. pose proof (chain_functional _ _ _ _ Hc Hc') as <-.
      by apply (Hno l n).
    + intros Hno l n Hin. apply (Hno l). by eapply chain_lookup.
  - intros l Heq. destruct (first_match i ns) as [[l' n]|] eqn:Hm; [|done].
    injection Heq as ->. apply first_match_Some in Hm as [Hin Hid].
    exists n. split; [by eapply chain_lookup|done].
Qed.

(** X4: inserting key i does not change what a lookup of another key k
    returns: the same node and the same payload as before. *)
Theorem insert_keeps_other_keys (m : Memory T) (i k : Z) (t : T) (fuel1 : nat) :
  reachable m → k ≠ i →
  ∃ m' fuel0 found value,
    insert (S fuel1) i t m = Done tt m' ∧
    ∀ fuel, (fuel0 ≤ fuel)%nat →
      find fuel k m = Done found m ∧ find fuel k m' = Done found m' ∧
      find_value fuel k m = Done value m ∧ find_value fuel k m' = Done value m'.
Proof.
  intros Hr Hne. rewrite insert_spec.
  destruct (reachable_bucket m (Triple_Hash.get k) Hr) as [ns Hc].
  eexists _, (S (length ns + S (length ns))), _, _. split; [done|].
  intros fuel Hlen.
  pose proof (bucket_insert m (Triple_Hash.get i) (alloc (heap m))
    (to_uint64 (sizeCounter m + 1))
    (mkNode i t (table m !! Triple_Hash.get i)) (Triple_Hash.get k) ns
    (alloc_fresh _) eq_refl Hc) as Hc'.
  eapply (find_same_first_match _ _ k ns); [done|exact Hc'| |].
  - case_decide; [|done]. simpl.
    by rewrite (proj2 (Z.eqb_neq i k)) by done.
  - case_decide; simpl; lia.
Qed.

(** X5: an [erase(i)] that returns does not change what a lookup of another
    key k returns: the same node and the same payload as before. *)
Theorem erase_keeps_other_keys (m m' : Memory T) (i k : Z) (fuel1 : nat) :
  reachable m → k ≠ i → erase fuel1 i m = Done tt m' →
  ∃ fuel0 found value,
    ∀ fuel, (fuel0 ≤ fuel)%nat →
      find fuel k m = Done found m ∧ find fuel k m' = Done found m' ∧
      find_value fuel k m = Done value m ∧ find_value fuel k m' = Done value m'.
Proof.
  intros Hr Hne Her.
  destruct (reachable_bucket m (Triple_Hash.get k) Hr) as [ns Hc].
  exists (S (length ns + length ns)), (fst <$> first_match k ns),
    (data ∘ snd <$> first_match k ns).
  intros fuel Hlen.
  apply erase_Done in Her as [->|(l & n & Hb & Hl & Hid & ->)].
  - apply (find_same_first_match _ _ k ns ns); [done|done|done|lia].
  - pose proof (bucket_erase_head m (Triple_Hash.get i) l n (sizeCounter m)
      (Triple_Hash.get k) ns (reachable_well_formed m Hr) Hb Hl Hc) as Hc'.
    eapply (find_same_first_match _ _ k ns); [done|exact Hc'| |].
    + case_decide as Hbb; [|done].
      unfold bucket in Hc. rewrite <- Hbb, Hb in Hc.
      inversion Hc as [|? n' nst Hl' Htl]; subst.
      assert (n' = n) as -> by congruence. simpl.
      by rewrite (proj2 (Z.eqb_neq (id n) k)) by done.
    + case_decide; [|lia]. rewrite length_drop. lia.
Qed.

End Properties.

(** ** Sequences of operations *)

Section Sequences.
Context {T : Type}.
Implicit Types (h : gmap loc (Node T)) (m : Memory T) (p : ptr)
  (ns : list (loc * Node T)) (n : Node T) (l : loc) (kvs : list (Z * T)).

Lemma to_uint64_add_l a b : to_uint64 (to_uint64 a + b) = to_uint64 (a + b).
Proof. unfold to_uint64. by rewrite Zplus_mod_idemp_l. Qed.






(** X8: the insertion loop over any keys and payloads returns; the counter
    has grown by their number (modulo 2^64), the heap holds that many more
    nodes, and every node that was live is unchanged. *)
Theorem insert_all_counts (m : Memory T) (kvs : list (Z * T)) (fuel : nat) :
  0 ≤ sizeCounter m < uint64_modulus →
  ∃ m', insert_all (S fuel) kvs m = Done tt m' ∧
        sizeCounter m' = to_uint64 (sizeCounter m + Z.of_nat (length kvs)) ∧
        base.size (heap m') = (base.size (heap m) + length kvs)%nat ∧
        (∀ l n, heap m !! l = Some n → heap m' !! l = Some n).
Proof.
  revert m. induction kvs as [|[i t] kvs IH]; intros m Hc.
  - exists m. simpl. repeat split; [|lia|done].
    rewrite Z.add_0_r. by rewrite to_uint64_small.
  - cbn [insert_all]. unfold mbind, M_bind, bind. rewrite insert_spec.
    match goal with |- context [insert_all _ _ ?m1] =>
      destruct (IH m1) as (m' & Hrun & Hs & Hn & Hold);
        [apply to_uint64_range|] end.
    exists m'. split; [done|]. simpl in *. split; [|split].
    + rewrite Hs, to_uint64_add_l. f_equal. lia.
    + rewrite Hn, map_size_insert_None by apply alloc_fresh. lia.
    + intros l n Hl. apply Hold. rewrite lookup_insert_ne; [done|].
      intros <-. by rewrite alloc_fresh in Hl.
Qed.

Lemma insert_all_app fuel kvs1 kvs2 m :
  insert_all fuel (kvs1 ++ kvs2) m =
  (insert_all fuel kvs1;; insert_all fuel kvs2) m.
Proof.
  revert m. induction kvs1 as [|[i t] kvs1 IH]; intros m; [done|].
  cbn [app insert_all]. unfold mbind, M_bind, bind in *.
  destruct (insert fuel i t m) as [[] m1| |m1]; [|done..]. apply IH.
Qed.

Lemma insert_all_reachable fuel kvs m :
  reachable m →
  ∃ m', insert_all (S fuel) kvs m = Done tt m' ∧ reachable m'.
Proof.
  revert m. induction kvs as [|[i t] kvs IH]; intros m Hr; [by exists m|].
  cbn [insert_all]. unfold mbind, M_bind, bind.
  destruct (insert (S fuel) i t m) as [[] m1| |m1] eqn:Hins;
    [|by rewrite insert_spec in Hins..].
  apply IH. by eapply reachable_insert.
Qed.

(** Insertions of other keys leave the first match of key [k] in its
    bucket where it is. *)
Lemma insert_all_keeps_first_match fuel kvs m k l n :
  reachable m → k ∉ kvs.*1 →
  (∃ ns, bucket m (Triple_Hash.get k) ns ∧ first_match k ns = Some (l, n)) →
  ∃ m', insert_all (S fuel) kvs m = Done tt m' ∧ reachable m' ∧
        ∃ ns, bucket m' (Triple_Hash.get k) ns ∧ first_match k ns = Some (l, n).
Proof.
  revert m. induction kvs as [|[i t] kvs IH]; intros m Hr Hk (ns & Hc & Hm).
  - exists m. split; [done|]. split; [done|]. by exists ns.
  - cbn [insert_all]. unfold mbind, M_bind, bind.
    simpl in Hk. apply not_elem_of_cons in Hk as [Hki Hk].
    destruct (insert (S fuel) i t m) as [[] m1| |m1] eqn:Hins;
      [|by rewrite insert_spec in Hins..].
    apply IH; [by eapply reachable_insert|done|].
    rewrite insert_spec in Hins. injection Hins as <-.
    pose proof (bucket_insert m (Triple_Hash.get i) (alloc (heap m))
      (to_uint64 (sizeCounter m + 1))
      (mkNode i t (table m !! Triple_Hash.get i)) (Triple_Hash.get k) ns
      (alloc_fresh _) eq_refl Hc) as Hc'.
    eexists. split; [exact Hc'|]. case_decide; [|done]. simpl.
    by rewrite (proj2 (Z.eqb_neq i k)) by done.
Qed.

(** X9: after the insertion loop a key is found with the payload of its
    last insertion: if (k, v) is in the sequence and k does not occur
    after it, [find(k)] gives v. *)
Theorem insert_all_last_wins (m : Memory T) (pre post : list (Z * T))
    (k : Z) (v : T) (fuel1 : nat) :
  reachable m → k ∉ post.*1 →
  ∃ m' fuel0,
    insert_all (S fuel1) (pre ++ (k, v) :: post) m = Done tt m' ∧
    ∀ fuel, (fuel0 ≤ fuel)%nat → find_value fuel k m' = Done (Some v) m'.
Proof.
  intros Hr Hk. rewrite insert_all_app.
  destruct (insert_all_reachable fuel1 pre m Hr) as (m1 & Hpre & Hr1).
  unfold mbind at 1, M_bind at 1, bind at 1. rewrite Hpre.
  cbn [insert_all]. unfold mbind at 1, M_bind at 1, bind at 1.
  destruct (reachable_bucket m1 (Triple_Hash.get k) Hr1) as [ns1 Hc1].
  destruct (insert (S fuel1) k v m1) as [[] m2| |m2] eqn:Hins;
    [|by rewrite insert_spec in Hins..].
  pose proof (reachable_insert _ _ _ _ _ Hr1 Hins) as Hr2.
  rewrite insert_spec in Hins. injection Hins as <-.
  destruct (insert_all_keeps_first_match fuel1 post _ k (alloc (heap m1))
              (mkNode k v (table m1 !! Triple_Hash.get k)) Hr2 Hk)
    as (m' & Hpost & _ & ns & Hc & Hm).
  { pose proof (bucket_insert m1 (Triple_Hash.get k) (alloc (heap m1))
      (to_uint64 (sizeCounter m1 + 1))
      (mkNode k v (table m1 !! Triple_Hash.get k)) (Triple_Hash.get k) ns1
      (alloc_fresh _) eq_refl Hc1) as Hc'.
    rewrite decide_True in Hc' by done.
    eexists. split; [exact Hc'|]. simpl. by rewrite Z.eqb_refl. }
  exists m', (S (length ns)). split; [done|]. intros fuel Hlen.
  rewrite (find_value_chain _ _ _ ns) by (done || lia). by rewrite Hm.
Qed.



End Sequences.

(** ** The footprint of a removal *)

Section Footprint.
Context {T : Type}.

(** X13: an [erase(k)] that returns has done one of two things, on any
    memory: it changed nothing but the counter, which it decremented modulo
    2^64; or it freed exactly the node at the head of k's bucket, which has
    key k, made that node's successor the head, and left every other bucket
    head, every other node and the counter as they were. *)
Theorem erase_effect (m m' : Memory T) (i : Z) (fuel : nat) :
  erase fuel i m = Done tt m' →
  (table m' = table m ∧ heap m' = heap m ∧
   sizeCounter m' = to_uint64 (sizeCounter m - 1)) ∨
  (∃ l n,
      table m !! Triple_Hash.get i = Some l ∧ heap m !! l = Some n ∧ id n = i ∧
      heap m' = base.delete l (heap m) ∧
      table m' !! Triple_Hash.get i = next n ∧
      (∀ b, b ≠ Triple_Hash.get i → table m' !! b = table m !! b) ∧
      sizeCounter m' = sizeCounter m).
Proof.
  intros Her. apply erase_Done in Her as [->|(l & n & Hb & Hl & Hid & ->)].
  - by left.
  - right. exists l, n. simpl. repeat (split; [done|]). split; [|split; [|done]].
    + rewrite lookup_head_store. by rewrite decide_True.
    + intros b Hne. rewrite lookup_head_store. by rewrite decide_False.
Qed.

End Footprint.

(** ** Collisions of the hash function *)

Section Collisions.
Import Triple_Hash.

(** X12: as long as the first product does not wrap, two keys that differ
    by the first modulus 10^9 + 7 get the same index. *)
Theorem get_collides_at_first_modulus (i : Z) :
  0 ≤ i → i + 1000000007 ≤ 6949403087 →
  get (i + 1000000007) = get i.
Proof.
  intros H0 Hi. rewrite !get_small_key by lia. do 3 f_equal.
  change 1000000007 with MOD1. rewrite Z.mul_add_distr_r.
  by rewrite (Z.mul_comm MOD1 PRIME1), Z_mod_plus_full.
Qed.

End Collisions.

(** ** Further instances on concrete tables *)

Section More_instances.

Lemma erase_201850 :
  erase 1 201850 table_collision = Done tt table_collision_erased.
Proof.
  rewrite (erase_head _ _ _ 2%positive (mkNode 201850 43 (Some 1%positive)))
    by done.
  reflexivity.
Qed.

Lemma reachable_structure_collision :
  well_formed table_collision ∧ keys_in_place table_collision ∧
  no_leak table_collision ∧
  (∀ b ns, bucket table_collision b ns → NoDup ns.*1) ∧
  0 ≤ sizeCounter table_collision < 2 ^ 64.
Proof. exact (reachable_structure table_collision reachable_table_collision). Defined.

Lemma operations_never_fault_collision :
  (∀ fuel i t, insert fuel i t table_collision ≠ Fault) ∧
  (∀ fuel i, find fuel i table_collision ≠ Fault) ∧
  (∀ fuel i, find_value fuel i table_collision ≠ Fault) ∧
  (∀ fuel i, erase fuel i table_collision ≠ Fault).
Proof. exact (operations_never_fault table_collision reachable_table_collision). Defined.

Lemma find_absent_iff_no_live_node_collision :
  ∃ fuel0 r, ∀ fuel, (fuel0 ≤ fuel)%nat →
    find fuel 5 table_collision = Done r table_collision ∧
    (r = None ↔ ∀ l n, heap table_collision !! l = Some n → id n ≠ 5) ∧
    (∀ l, r = Some l → ∃ n, heap table_collision !! l = Some n ∧ id n = 5).
Proof.
  exact (find_absent_iff_no_live_node table_collision 5 reachable_table_collision).
Defined.

Lemma insert_keeps_other_keys_collision :
  ∃ m' fuel0 found value,
    insert 1 201850 7 table_collision = Done tt m' ∧
    ∀ fuel, (fuel0 ≤ fuel)%nat →
      find fuel 1 table_collision = Done found table_collision ∧
      find fuel 1 m' = Done found m' ∧
      find_value fuel 1 table_collision = Done value table_collision ∧
      find_value fuel 1 m' = Done value m'.
Proof.
  apply (insert_keeps_other_keys table_collision 201850 1 7 0).
  - apply reachable_table_collision.
  - discriminate.
Defined.

Lemma erase_keeps_other_keys_collision :
  ∃ fuel0 found value,
    ∀ fuel, (fuel0 ≤ fuel)%nat →
      find fuel 1 table_collision = Done found table_collision ∧
      find fuel 1 table_collision_erased = Done found table_collision_erased ∧
      find_value fuel 1 table_collision = Done value table_collision ∧
      find_value fuel 1 table_collision_erased = Done value table_collision_erased.
Proof.
  apply (erase_keeps_other_keys table_collision table_collision_erased 201850 1 1).
  - apply reachable_table_collision.
  - discriminate.
  - apply erase_201850.
Defined.


Lemma insert_all_counts_thread :
  ∃ m' : Memory Z,
    insert_all 1 (thread_ids 1 100) (@empty Z) = Done tt m' ∧
    sizeCounter m' = to_uint64 (0 + Z.of_nat (length (thread_ids 1 100))) ∧
    base.size (heap m') = (base.size (heap (@empty Z)) + length (thread_ids 1 100))%nat ∧
    (∀ l n, heap (@empty Z) !! l = Some n → heap m' !! l = Some n).
Proof.
  apply (insert_all_counts (@empty Z) (thread_ids 1 100) 0).
  split; [reflexivity|reflexivity].
Defined.

Lemma insert_all_last_wins_collision :
  ∃ (m' : Memory Z) fuel0,
    insert_all 1 ([(1, 10)] ++ (1, 20) :: [(201850, 30)]) (@empty Z) = Done tt m' ∧
    ∀ fuel, (fuel0 ≤ fuel)%nat → find_value fuel 1 m' = Done (Some 20) m'.
Proof.
  apply (insert_all_last_wins (@empty Z) [(1, 10)] [(201850, 30)] 1 20 0).
  - apply reachable_empty.
  - intros Hin. apply list_elem_of_singleton in Hin. discriminate.
Defined.


Lemma get_collides_at_first_modulus_1 :
  Triple_Hash.get (1 + 1000000007) = Triple_Hash.get 1.
Proof. apply (get_collides_at_first_modulus 1); lia. Defined.

Lemma erase_effect_collision :
  (table table_collision_erased = table table_collision ∧
   heap table_collision_erased = heap table_collision ∧
   sizeCounter table_collision_erased = to_uint64 (sizeCounter table_collision - 1)) ∨
  (∃ l n,
      table table_collision !! Triple_Hash.get 201850 = Some l ∧
      heap table_collision !! l = Some n ∧ id n = 201850 ∧
      heap table_collision_erased = base.delete l (heap table_collision) ∧
      table table_collision_erased !! Triple_Hash.get 201850 = next n ∧
      (∀ b, b ≠ Triple_Hash.get 201850 →
            table table_collision_erased !! b = table table_collision !! b) ∧
      sizeCounter table_collision_erased = sizeCounter table_collision).
Proof.
  apply (erase_effect table_collision table_collision_erased 201850 1).
  apply erase_201850.
Defined.



End More_instances.

End LookTable.
